(** * BeSLighthouse: the dependency graph of [GraphDisplay]

    A shallow embedding of
    [src/pages/ModelOfInterest/GraphDisplay/index.tsx]: the construction
    of nodes and links from the fetched records, the promise chain around
    it, the click and drag handlers and the [ticked] callback.

    JavaScript values are modelled as follows.
    - A name is a [jsval]: the string of the record, [JUndefined] when the
      property is absent and [JNull] for a JSON null.  [Set], [===] and
      [Array.prototype.find] compare such values by plain equality.
    - A number is a binary64 float ([PrimFloat.float]); an optional
      property that is absent, undefined or null is [None].
    - A thrown exception is the left summand of [result]. *)

From Stdlib Require Import PrimFloat QArith Qround Lqa.
From stdpp Require Import base decidable option list strings pretty.

Open Scope string_scope.
Open Scope list_scope.

(** ** Values *)

Inductive jsval : Type :=
  | JUndefined
  | JNull
  | JStr (s : string).

#[global] Instance jsval_eq_dec : EqDecision jsval.
Proof. solve_decision. Defined.

(** [ToString] as used by [url + nodeName] and by template literals. *)
Definition to_string (v : jsval) : string :=
  match v with
  | JUndefined => "undefined"
  | JNull => "null"
  | JStr s => s
  end.

(** An element of the fetched array: [item.name] and [item.dependencies].
    [dependencies = None] stands for any value that is not an array
    (absent, null, a number, a string, an object): calling [forEach] on
    it raises a [TypeError]. *)
Record item : Type := Item {
  item_name : jsval;
  item_dependencies : option (list jsval)
}.

(** ** Exceptions *)

Inductive exn : Type :=
  | Error (message : string)        (* [new Error(...)] of the first [then] *)
  | TypeError                       (* raised by the engine *)
  | SyntaxError (message : string)  (* raised by [response.json()] *)
  | NetworkError (message : string) (* rejection of [fetch] itself *).

Definition result (A : Type) : Type := exn + A.

Definition throw {A} (e : exn) : result A := inl e.

#[global] Instance result_ret : MRet result := λ A a, inr a.
#[global] Instance result_bind : MBind result := λ A B k m,
  match m with
  | inl e => inl e
  | inr a => k a
  end.

(** [arr.forEach(f)] with a callback that may throw, threading the state
    the callback mutates. *)
Fixpoint forEach {A S} (f : S → A → result S) (l : list A) (s : S) : result S :=
  match l with
  | [] => mret s
  | a :: l' => s' ← f s a ; forEach f l' s'
  end.

(** [item.dependencies.forEach(f)]: a [TypeError] unless the property is
    an array. *)
Definition deps_forEach {S} (f : S → jsval → result S) (it : item) (s : S)
  : result S :=
  match item_dependencies it with
  | None => throw TypeError
  | Some deps => forEach f deps s
  end.

(** ** Nodes and links *)

(** [interface Node extends d3.SimulationNodeDatum]; the optional
    simulation fields are [None] until assigned. *)
Record Node : Type := mkNode {
  name : jsval;
  color : string;
  model_url : option string;   (* [null] is [None] *)
  isDependency : bool;
  x : option float;
  y : option float;
  vx : option float;
  vy : option float;
  fx : option float;
  fy : option float
}.

Record Link : Type := mkLink {
  source : jsval;
  target : jsval
}.

#[global] Instance Link_eq_dec : EqDecision Link.
Proof. solve_decision. Defined.

Definition set_isDependency (b : bool) (n : Node) : Node :=
  mkNode (name n) (color n) (model_url n) b (x n) (y n) (vx n) (vy n) (fx n) (fy n).

(** ** GraphBuilder *)

(** [new Set<string>()] keeps insertion order; [add] ignores a value
    already present. *)
Definition Set_add (v : jsval) (s : list jsval) : list jsval :=
  if decide (v ∈ s) then s else s ++ [v].

(** Lines 35-39. *)
Definition nodesSet (data : list item) : result (list jsval) :=
  forEach (λ s it,
    deps_forEach (λ s dep, mret (Set_add dep s)) it (Set_add (item_name it) s))
    data [].

(** [getModelUrl], lines 145-149. *)
Definition model_report : string := "/BeSLighthouse/model_report".

Definition getModelUrl (data : list item) (nodeName : jsval) : option string :=
  match list_find (λ it, item_name it = nodeName) data with
  | Some _ => Some (model_report +:+ to_string nodeName)
  | None => None
  end.

(** Lines 41-46. *)
Definition make_nodes (data : list item) (names : list jsval) : list Node :=
  (λ nm, mkNode nm "#0077cc" (getModelUrl data nm) false
                None None None None None None) <$> names.

(** Lines 54-55: [nodes.find(...)] and the assignment through the
    reference it returns. *)
Definition mark_dependency (dep : jsval) (nodes : list Node) : list Node :=
  match list_find (λ nd, name nd = dep) nodes with
  | Some (i, depNode) => <[i := set_isDependency true depNode]> nodes
  | None => nodes
  end.

(** Lines 49-57; the state is the pair of [links] and [nodes]. *)
Definition make_links (data : list item) (nodes : list Node)
  : result (list Link * list Node) :=
  forEach (λ st it,
    deps_forEach (λ '(links, nodes) dep,
      mret (links ++ [mkLink (item_name it) dep], mark_dependency dep nodes))
      it st)
    data ([], nodes).

Record Graph : Type := mkGraph {
  nodes : list Node;
  links : list Link
}.

Definition GraphBuilder (data : list item) : result Graph :=
  names ← nodesSet data ;
  '(links, nodes) ← make_links data (make_nodes data names) ;
  mret (mkGraph nodes links).

(** ** The promise chain (lines 26-33 and 168-170) *)

(** What [fetch] resolves with.  [status] is [response.status];
    [json] is the outcome of [response.json()]: the parsed array, or the
    diagnostic of the [SyntaxError] the parser raises. *)
Record Response : Type := mkResponse {
  status : N;
  json : string + list item
}.

(** [response.ok] of the Fetch standard: the status is in 200-299. *)
Definition ok (response : Response) : bool :=
  bool_decide (200 ≤ status response)%N && bool_decide (status response ≤ 299)%N.

(** The first [then], lines 27-32. *)
Definition then_json (response : Response) : result (list item) :=
  if negb (ok response)
  then throw (Error ("Failed to fetch data. Status: " +:+ pretty (status response)))
  else match json response with
       | inl diagnostic => throw (SyntaxError diagnostic)
       | inr data => mret data
       end.

(** What the effect leaves behind: the graph handed to the simulation
    and bound to the SVG elements, if the second [then] ran to its end,
    and the calls of [console.error].  A console entry keeps the label
    and the error whose [message] is printed. *)
Record Outcome : Type := mkOutcome {
  rendered : option Graph;
  console : list (string * exn)
}.

(** [fetch(...).then(...).then(...).catch(...)]; the argument is what the
    [fetch] promise settles with. *)
Definition GraphDisplay (fetched : result Response) : Outcome :=
  match response ← fetched ; data ← then_json response ; GraphBuilder data with
  | inr g => mkOutcome (Some g) []
  | inl error => mkOutcome None [("Error fetching data:", error)]
  end.

(** ** Events and handlers *)

(** The fields the handlers read from [event]: [active] (0 when the
    property is absent or falsy, as on a DOM click event) and the
    coordinates of a drag event. *)
Record Event : Type := mkEvent {
  active : nat;
  ev_x : float;
  ev_y : float
}.

Inductive effect : Type :=
  | window_open (url : string) (target : string).

(** Truthiness of [d.model_url]: [null] and the empty string are falsy. *)
Definition truthy_url (u : option string) : bool :=
  match u with
  | Some s => negb (bool_decide (s = ""))
  | None => false
  end.

(** [handleNodeClick], lines 114-118. *)
Definition handleNodeClick (event : Event) (d : Node) : list effect :=
  if truthy_url (model_url d) && bool_decide (active event = 0)
  then [window_open ("/BeSLighthouse/model_report/:" +:+ to_string (name d)) "_blank"]
  else [].

(** ** [ticked], lines 133-143 *)

(** Truthiness of a number: [0], [-0] and [NaN] are falsy. *)
Definition truthy (v : float) : bool := negb (is_zero v || is_nan v).

(** [v || 0] for an optional numeric property. *)
Definition or_zero (v : option float) : float :=
  match v with
  | Some f => if truthy f then f else 0%float
  | None => 0%float
  end.

(** After [d3.forceLink(links)] has initialised, [source] and [target] of
    a link are the node objects themselves; a link is kept here as the
    two positions of those objects in the [nodes] array. *)
Record SimLink : Type := mkSimLink {
  source_index : nat;
  target_index : nat
}.

Record LineAttr : Type := mkLine { x1 : float; y1 : float; x2 : float; y2 : float }.
Record PointAttr : Type := mkPoint { px : float; py : float }.

(** The attributes [ticked] sets: one line per link, one circle and one
    label per node. *)
Record Frame : Type := mkFrame {
  link_attrs : list LineAttr;
  node_attrs : list PointAttr;
  nodeName_attrs : list PointAttr
}.

Definition node_x (nodes : list Node) (i : nat) : option float := nodes !! i ≫= x.
Definition node_y (nodes : list Node) (i : nat) : option float := nodes !! i ≫= y.

Definition ticked (links : list SimLink) (nodes : list Node) : Frame :=
  mkFrame
    ((λ d, mkLine (or_zero (node_x nodes (source_index d)))
                  (or_zero (node_y nodes (source_index d)))
                  (or_zero (node_x nodes (target_index d)))
                  (or_zero (node_y nodes (target_index d)))) <$> links)
    ((λ d, mkPoint (or_zero (x d)) (or_zero (y d))) <$> nodes)
    ((λ d, mkPoint (or_zero (x d)) (or_zero (y d))) <$> nodes).

(** ** The simulation *)

(** Modelled from the spec: the simulation object of [d3.forceSimulation]
    and its tick loop, which belong to the d3 library and are not among the
    sources.  Section 4.2: alpha decays geometrically each tick, towards
    [alphaTarget]; the forces are accumulated into the velocity and the
    velocity into the position; a pinned coordinate replaces the position
    each tick; the loop stops once alpha is below the floor [alphaMin] and
    runs again when restarted.  Alpha is kept as an exact rational, in
    lowest terms.
    [force a nodes i] is the change of velocity of node [i], the sum of
    the repulsion, link and centering forces at alpha [a]. *)
Record Simulation : Type := mkSimulation {
  alpha : Q;
  alphaMin : Q;
  alphaDecay : Q;
  alphaTarget : Q;
  force : Q → list Node → nat → float * float;
  running : bool;
  sim_nodes : list Node
}.

(** A numeric property read in arithmetic: [undefined] becomes [NaN]. *)
Definition to_number (v : option float) : float := default nan v.

(** Modelled from the spec: the integration step of d3's tick, for one
    axis of one node.  A pinned coordinate becomes the position; otherwise
    the force is added to the velocity and the velocity to the position. *)
Definition integrate (pinned pos vel : option float) (dv : float)
  : option float * option float :=
  match pinned with
  | Some p => (Some p, vel)
  | None =>
      let v := (to_number vel + dv)%float in
      (Some (to_number pos + v)%float, Some v)
  end.

(** Modelled from the spec: the integration step of d3's tick, for one
    node; the two axes are independent. *)
Definition move (dv : float * float) (n : Node) : Node :=
  let '(x', vx') := integrate (fx n) (x n) (vx n) (fst dv) in
  let '(y', vy') := integrate (fy n) (y n) (vy n) (snd dv) in
  mkNode (name n) (color n) (model_url n) (isDependency n) x' y' vx' vy' (fx n) (fy n).

(** Modelled from the spec: [simulation.tick()] of d3.  Alpha moves
    towards [alphaTarget] by the fraction [alphaDecay], then every node is
    integrated under the forces computed at the new alpha. *)
Definition tick (s : Simulation) : Simulation :=
  let a := Qred (alpha s + (alphaTarget s - alpha s) * alphaDecay s) in
  mkSimulation a (alphaMin s) (alphaDecay s) (alphaTarget s) (force s) (running s)
    (imap (λ i n, move (force s a (sim_nodes s) i) n) (sim_nodes s)).

(** Modelled from the spec: [simulation.stop()] of d3. *)
Definition stop (s : Simulation) : Simulation :=
  mkSimulation (alpha s) (alphaMin s) (alphaDecay s) (alphaTarget s) (force s) false
    (sim_nodes s).

(** Modelled from the spec: [simulation.restart()] of d3. *)
Definition restart (s : Simulation) : Simulation :=
  mkSimulation (alpha s) (alphaMin s) (alphaDecay s) (alphaTarget s) (force s) true
    (sim_nodes s).

(** Modelled from the spec: [simulation.alphaTarget(t)] of d3. *)
Definition set_alphaTarget (t : Q) (s : Simulation) : Simulation :=
  mkSimulation (alpha s) (alphaMin s) (alphaDecay s) t (force s) (running s)
    (sim_nodes s).

(** Modelled from the spec: one firing of the timer that drives d3's
    simulation.  Nothing while stopped; otherwise a tick, after which the
    loop stops if alpha has fallen below the floor. *)
Definition step (s : Simulation) : Simulation :=
  if running s then
    let s' := tick s in
    if Qlt_le_dec (alpha s') (alphaMin s') then stop s' else s'
  else s.

(** Modelled from the spec: [d3.forceSimulation(nodes)] of line 68, a
    running simulation at the reference alpha 1 with target 0.  The floor,
    the decay and the forces are parameters; the nodes are taken as they
    are, the initial placement that d3 computes being left out. *)
Definition forceSimulation (floor decay : Q)
    (f : Q → list Node → nat → float * float) (nodes : list Node) : Simulation :=
  mkSimulation 1 floor decay 0 f true nodes.

(** *** The drag handlers, lines 151-166 *)

Definition set_fixed (fx' fy' : option float) (n : Node) : Node :=
  mkNode (name n) (color n) (model_url n) (isDependency n)
    (x n) (y n) (vx n) (vy n) fx' fy'.

(** Assignments through the reference [d]: node [d] of the array. *)
Definition update_node (f : Node → Node) (d : nat) (s : Simulation) : Simulation :=
  mkSimulation (alpha s) (alphaMin s) (alphaDecay s) (alphaTarget s) (force s)
    (running s) (alter f d (sim_nodes s)).

Definition dragstarted (event : Event) (d : nat) (s : Simulation) : Simulation :=
  let s := if bool_decide (active event = 0)
           then restart (set_alphaTarget (1 # 2) s) else s in
  update_node (λ n, set_fixed (x n) (y n) n) d s.

Definition dragged (event : Event) (d : nat) (s : Simulation) : Simulation :=
  update_node (set_fixed (Some (ev_x event)) (Some (ev_y event))) d s.

Definition dragended (event : Event) (d : nat) (s : Simulation) : Simulation :=
  let s := if bool_decide (active event = 0) then set_alphaTarget 0 s else s in
  update_node (set_fixed None None) d s.

(** What can happen to a simulation: a tick, or a drag event on a node. *)
Inductive input : Type :=
  | Tick
  | DragStart (event : Event) (d : nat)
  | Drag (event : Event) (d : nat)
  | DragEnd (event : Event) (d : nat).

Definition run (s : Simulation) (i : input) : Simulation :=
  match i with
  | Tick => tick s
  | DragStart event d => dragstarted event d s
  | Drag event d => dragged event d s
  | DragEnd event d => dragended event d s
  end.

(** The node an input is about, if any. *)
Definition subject (i : input) : option nat :=
  match i with
  | Tick => None
  | DragStart _ d | Drag _ d | DragEnd _ d => Some d
  end.

(** ** Vocabulary of the statements *)

(** The dependencies of a record that has them. *)
Definition deps_of (it : item) : list jsval := default [] (item_dependencies it).

(** Every name of the input, in order of appearance. *)
Definition all_names (data : list item) : list jsval :=
  data ≫= (λ it, item_name it :: deps_of it).

(** One link per pair of a record's name and one of its dependencies. *)
Definition edges (data : list item) : list Link :=
  data ≫= (λ it, mkLink (item_name it) <$> deps_of it).

Definition well_shaped (it : item) : Prop := is_Some (item_dependencies it).

(** The set after adding the values of [l] one by one. *)
Definition add_all (s : list jsval) (l : list jsval) : list jsval :=
  foldl (λ s v, Set_add v s) s l.

(** The flag set on a node whose name is among [ds]. *)
Definition mark_if (ds : list jsval) (nd : Node) : Node :=
  if decide (name nd ∈ ds) then set_isDependency true nd else nd.

(** The body of the inner loop of lines 51-56. *)
Definition push_link (it : item) (st : list Link * list Node) (dep : jsval)
  : list Link * list Node :=
  let '(links, nodes) := st in
  (links ++ [mkLink (item_name it) dep], mark_dependency dep nodes).

Definition set_position (x' y' : option float) (n : Node) : Node :=
  mkNode (name n) (color n) (model_url n) (isDependency n)
    x' y' (vx n) (vy n) (fx n) (fy n).

(** Node [d] is pinned at [(a, b)]. *)
Definition pinned_at (d : nat) (a b : float) (s : Simulation) : Prop :=
  ∃ n, sim_nodes s !! d = Some n ∧ fx n = Some a ∧ fy n = Some b.

(** [n] firings of the timer. *)
Definition steps (n : nat) (s : Simulation) : Simulation := Nat.iter n step s.

(** A number of firings after which the loop has stopped. *)
Definition ticks_bound (floor decay : Q) : nat :=
  S (Z.to_nat (Qceiling (/ (decay * floor)))).

Definition nat_Q (n : nat) : Q := inject_Z (Z.of_nat n).

(** What holds of the simulation after [n] firings of the timer, when
    nothing re-energizes it. *)
Record decaying (floor decay : Q) (n : nat) (s : Simulation) : Prop := {
  decaying_floor : alphaMin s = floor;
  decaying_decay : alphaDecay s = decay;
  decaying_target : alphaTarget s = 0%Q;
  decaying_nonneg : (0 <= alpha s)%Q;
  decaying_bound : running s = true → (alpha s * (1 + nat_Q n * decay) <= 1)%Q;
  decaying_above : running s = true → n = 0 ∨ (floor <= alpha s)%Q;
  decaying_below : running s = false → (alpha s < floor)%Q
}.

(** ** Sample inputs *)

(** The records of the example scenario, and the graph built from
    them. *)
Definition itemA : item := Item (JStr "A") (Some [JStr "B"]).
Definition itemB : item := Item (JStr "B") (Some []).

Definition nodeA : Node :=
  mkNode (JStr "A") "#0077cc" (Some "/BeSLighthouse/model_reportA") false
    None None None None None None.

Definition nodeB : Node :=
  mkNode (JStr "B") "#0077cc" (Some "/BeSLighthouse/model_reportB") true
    None None None None None None.

Definition graphAB : Graph := mkGraph [nodeA; nodeB] [mkLink (JStr "A") (JStr "B")].

(** A record without [name], and one without [dependencies]. *)
Definition missing_name : item := Item JUndefined (Some []).
Definition itemA_only_name : item := Item (JStr "A") None.

(** A DOM click event, and a drag event with the pointer at (5, 7). *)
Definition click : Event := mkEvent 0 0 0.
Definition pointer : Event := mkEvent 0 5 7.

Definition node_at (x' y' : option float) : Node :=
  mkNode (JStr "A") "#0077cc" None false x' y' None None None None.

Definition free_node : Node :=
  mkNode (JStr "A") "#0077cc" None false
    (Some 1%float) (Some 2%float) (Some 0%float) (Some 0%float) None None.

Definition no_force : Q → list Node → nat → float * float :=
  λ _ _ _, (0%float, 0%float).

Definition push : Q → list Node → nat → float * float :=
  λ _ _ _, (1%float, 1%float).

(** ** Presentation of the nodes *)

(** The [fill] of a circle, line 109. *)
Definition node_fill (d : Node) : string :=
  if isDependency d then "#EC5800" else "currentColor".

(** The [cursor] style of a circle, line 111. *)
Definition cursor (d : Node) : string :=
  if truthy_url (model_url d) then "pointer" else "default".

(** The [fill] of a label, line 130. *)
Definition nodeName_fill (d : Node) : string :=
  if isDependency d then "#34495e" else "#2c3e50".

(** The values of a list in order of first appearance. *)
Fixpoint first_seen (l : list jsval) : list jsval :=
  match l with
  | [] => []
  | v :: l' => v :: filter (λ w, w ≠ v) (first_seen l')
  end.

(** ** The pie chart of languages

    [src/examples/Charts/PieChart/Languages/index.tsx], lines 15-17: the
    labels and the series handed to the chart are the two projections of
    [chartData]. *)
Module Language.

Record datum (L V : Type) : Type := Datum { label : L; value : V }.
Arguments Datum {L V}.
Arguments label {L V}.
Arguments value {L V}.

Definition chartLabels {L V} (chartData : list (datum L V)) : list L :=
  label <$> chartData.

Definition chartSeries {L V} (chartData : list (datum L V)) : list V :=
  value <$> chartData.

End Language.

(** * Properties *)

(** ** Examples *)

Example GraphBuilder_AB : GraphBuilder [itemA; itemB] = inr graphAB.
Proof. reflexivity. Qed.

Example status_500 :
  GraphDisplay (inr (mkResponse 500 (inr [itemA; itemB]))) =
  mkOutcome None [("Error fetching data:", Error "Failed to fetch data. Status: 500")].
Proof. vm_compute. reflexivity. Qed.

(** ** [forEach] *)

Lemma forEach_app {A S} (f : S → A → result S) l1 l2 s :
  forEach f (l1 ++ l2) s = (s' ← forEach f l1 s ; forEach f l2 s').
Proof.
  revert s. induction l1 as [|a l1 IH]; intros s; simpl; [done|].
  destruct (f s a) as [e|s']; simpl; [done|]. apply IH.
Qed.

Lemma forEach_ext {A S} (f g : S → A → result S) l s :
  (∀ s a, f s a = g s a) → forEach f l s = forEach g l s.
Proof.
  intros Hfg. revert s. induction l as [|a l IH]; intros s; simpl; [done|].
  rewrite Hfg. destruct (g s a); simpl; [done|]. apply IH.
Qed.

Lemma deps_forEach_ext {S} (f g : S → jsval → result S) it s :
  (∀ s a, f s a = g s a) → deps_forEach f it s = deps_forEach g it s.
Proof.
  intros Hfg. unfold deps_forEach. destruct (item_dependencies it); [|done].
  by apply forEach_ext.
Qed.

(** A callback that never throws makes [forEach] a left fold. *)
Lemma forEach_pure {A S} (g : S → A → S) l s :
  forEach (λ s a, mret (g s a)) l s = inr (foldl g s l).
Proof. revert s. induction l as [|a l IH]; intros s; simpl; [done|]. apply IH. Qed.

Lemma deps_forEach_pure {S} (g : S → jsval → S) it s :
  deps_forEach (λ s dep, mret (g s dep)) it s =
  match item_dependencies it with
  | None => inl TypeError
  | Some deps => inr (foldl g s deps)
  end.
Proof. unfold deps_forEach. destruct (item_dependencies it); [apply forEach_pure|done]. Qed.

(** The shape of both loops over [data]: each record contributes a pure
    update [g] for its name and a pure update [h] for each dependency. *)
Lemma forEach_records_inv {S} (g : S → item → S) (h : item → S → jsval → S) data s r :
  forEach (λ s it, deps_forEach (λ s dep, mret (h it s dep)) it (g s it)) data s = inr r →
  Forall well_shaped data ∧
  r = foldl (λ s it, foldl (h it) (g s it) (deps_of it)) s data.
Proof.
  revert s. induction data as [|it data IH]; intros s; simpl.
  - intros [= <-]. auto.
  - rewrite deps_forEach_pure. unfold deps_of at 1, well_shaped.
    destruct (item_dependencies it) as [deps|] eqn:Hd; simpl; [|done].
    intros [Hw ->]%IH. split; [|by unfold deps_of; rewrite Hd].
    constructor; [by rewrite Hd|done].
Qed.

Lemma forEach_records_ok {S} (g : S → item → S) (h : item → S → jsval → S) data s :
  Forall well_shaped data →
  forEach (λ s it, deps_forEach (λ s dep, mret (h it s dep)) it (g s it)) data s =
  inr (foldl (λ s it, foldl (h it) (g s it) (deps_of it)) s data).
Proof.
  intros Hw. revert s. induction Hw as [|it data [deps Hd] _ IH]; intros s; simpl; [done|].
  rewrite deps_forEach_pure, Hd. simpl. rewrite IH. by unfold deps_of; rewrite Hd.
Qed.

Lemma forEach_records_fail {S} (g : S → item → S) (h : item → S → jsval → S) data s :
  ¬ Forall well_shaped data →
  forEach (λ s it, deps_forEach (λ s dep, mret (h it s dep)) it (g s it)) data s =
  inl TypeError.
Proof.
  revert s. induction data as [|it data IH]; intros s Hn; simpl.
  - destruct Hn. constructor.
  - rewrite deps_forEach_pure.
    destruct (item_dependencies it) as [deps|] eqn:Hd; simpl; [|done].
    apply IH. intros Hw. apply Hn. constructor; [by unfold well_shaped; rewrite Hd|done].
Qed.

(** ** The set of names *)

Lemma elem_of_Set_add v w s : w ∈ Set_add v s ↔ w = v ∨ w ∈ s.
Proof.
  unfold Set_add. case_decide.
  - split; [auto|]. intros [->|]; done.
  - rewrite elem_of_app, list_elem_of_singleton. tauto.
Qed.

Lemma NoDup_Set_add v s : NoDup s → NoDup (Set_add v s).
Proof.
  intros Hs. unfold Set_add. case_decide; [done|].
  apply NoDup_app. split_and!; [done| |apply NoDup_singleton].
  intros w Hw ->%list_elem_of_singleton. done.
Qed.

Lemma elem_of_add_all l s w : w ∈ add_all s l ↔ w ∈ s ∨ w ∈ l.
Proof.
  revert s. induction l as [|v l IH]; intros s; simpl.
  - rewrite elem_of_nil. tauto.
  - unfold add_all in *. simpl. rewrite IH, elem_of_Set_add, elem_of_cons. tauto.
Qed.

Lemma NoDup_add_all l s : NoDup s → NoDup (add_all s l).
Proof.
  revert s. induction l as [|v l IH]; intros s Hs; simpl; [done|].
  apply IH, NoDup_Set_add, Hs.
Qed.

Lemma nodesSet_fold data s :
  foldl (λ s it, foldl (λ s dep, Set_add dep s) (Set_add (item_name it) s) (deps_of it))
    s data = add_all s (all_names data).
Proof.
  revert s. induction data as [|it data IH]; intros s; [done|].
  unfold all_names, add_all in *. simpl. rewrite IH, foldl_app. done.
Qed.

Lemma nodesSet_inv data names :
  nodesSet data = inr names →
  Forall well_shaped data ∧ names = add_all [] (all_names data).
Proof.
  unfold nodesSet. intros [Hw ->]%(forEach_records_inv (λ s it, Set_add (item_name it) s)
    (λ _ s dep, Set_add dep s)).
  by rewrite nodesSet_fold.
Qed.

(** ** Marking the dependencies *)

Lemma name_mark_if ds nd : name (mark_if ds nd) = name nd.
Proof. unfold mark_if. by case_decide. Qed.

Lemma model_url_mark_if ds nd : model_url (mark_if ds nd) = model_url nd.
Proof. unfold mark_if. by case_decide. Qed.

Lemma isDependency_mark_if ds nd :
  isDependency (mark_if ds nd) = isDependency nd || bool_decide (name nd ∈ ds).
Proof.
  unfold mark_if. case_decide.
  - rewrite bool_decide_true by done. simpl. by rewrite orb_true_r.
  - rewrite bool_decide_false by done. by rewrite orb_false_r.
Qed.

(** With distinct names, the node [find] returns is the only one of
    that name: the assignment is a map over the array. *)
Lemma mark_dependency_fmap dep nds :
  NoDup (name <$> nds) →
  mark_dependency dep nds = mark_if [dep] <$> nds.
Proof.
  intros Hnd. unfold mark_dependency.
  destruct (list_find _ nds) as [[i depNode]|] eqn:Hf.
  - apply list_find_Some in Hf as (Hi & Hname & Hbefore).
    apply list_eq. intros j. rewrite list_lookup_fmap.
    destruct (decide (i = j)) as [<-|Hij].
    + rewrite list_lookup_insert_eq by (by eapply lookup_lt_Some).
      rewrite Hi. simpl. unfold mark_if.
      rewrite decide_True by (by apply list_elem_of_singleton). done.
    + rewrite list_lookup_insert_ne by done.
      destruct (nds !! j) as [nd|] eqn:Hj; simpl; [|done].
      unfold mark_if. rewrite decide_False; [done|].
      intros Hin%list_elem_of_singleton. apply Hij.
      eapply NoDup_lookup; [exact Hnd| |].
      * rewrite list_lookup_fmap, Hi. done.
      * rewrite list_lookup_fmap, Hj. simpl. congruence.
  - apply list_find_None in Hf.
    apply list_eq. intros j. rewrite list_lookup_fmap.
    destruct (nds !! j) as [nd|] eqn:Hj; simpl; [|done].
    unfold mark_if. rewrite decide_False; [done|].
    intros Hin%list_elem_of_singleton.
    rewrite Forall_forall in Hf. eapply Hf; [|exact Hin].
    by eapply list_elem_of_lookup_2.
Qed.

Lemma names_mark_if ds (nds : list Node) : name <$> (mark_if ds <$> nds) = name <$> nds.
Proof.
  rewrite <- list_fmap_compose. apply list_fmap_ext. intros _ nd _. apply name_mark_if.
Qed.

Lemma mark_if_app ds1 ds2 nd : mark_if ds2 (mark_if ds1 nd) = mark_if (ds1 ++ ds2) nd.
Proof.
  unfold mark_if at 2. case_decide as H1.
  - unfold mark_if. simpl.
    rewrite (decide_True (P := name nd ∈ ds1 ++ ds2)) by (apply elem_of_app; auto).
    by case_decide.
  - unfold mark_if. case_decide as H2.
    + rewrite decide_True by (apply elem_of_app; auto). done.
    + rewrite decide_False; [done|]. rewrite elem_of_app. tauto.
Qed.

Lemma mark_dependency_foldl ds ds0 nds :
  NoDup (name <$> nds) →
  foldl (λ nds dep, mark_dependency dep nds) (mark_if ds0 <$> nds) ds =
  mark_if (ds0 ++ ds) <$> nds.
Proof.
  intros Hnd. revert ds0. induction ds as [|d ds IH]; intros ds0; simpl.
  - by rewrite app_nil_r.
  - rewrite mark_dependency_fmap by (by rewrite names_mark_if).
    rewrite <- list_fmap_compose.
    rewrite (list_fmap_ext _ (mark_if (ds0 ++ [d])) nds)
      by (intros; apply mark_if_app).
    rewrite IH, <- app_assoc. done.
Qed.

Lemma mark_if_nil nd : mark_if [] nd = nd.
Proof. unfold mark_if. rewrite decide_False; [done|]. apply not_elem_of_nil. Qed.

(** ** The links *)

Lemma push_link_foldl it deps ls nds :
  foldl (push_link it) (ls, nds) deps =
  (ls ++ (mkLink (item_name it) <$> deps),
   foldl (λ nds dep, mark_dependency dep nds) nds deps).
Proof.
  revert ls nds. induction deps as [|d deps IH]; intros ls nds; simpl.
  - by rewrite app_nil_r.
  - rewrite IH, <- app_assoc. done.
Qed.

Lemma make_links_fold data (ls : list Link) (nds : list Node) :
  foldl (λ st it, foldl (push_link it) st (deps_of it)) (ls, nds) data =
  (ls ++ edges data, foldl (λ nds dep, mark_dependency dep nds) nds (data ≫= deps_of)).
Proof.
  revert ls nds. induction data as [|it data IH]; intros ls nds; simpl.
  - by rewrite app_nil_r.
  - rewrite push_link_foldl, IH. unfold edges. simpl.
    rewrite foldl_app, <- app_assoc. done.
Qed.

Lemma make_links_inv data nds ls nds' :
  NoDup (name <$> nds) →
  make_links data nds = inr (ls, nds') →
  ls = edges data ∧ nds' = mark_if (data ≫= deps_of) <$> nds.
Proof.
  intros Hnd. unfold make_links.
  erewrite forEach_ext; last first.
  { intros st it. apply deps_forEach_ext with
      (g := λ st dep, mret (push_link it st dep)).
    by intros []. }
  intros [_ Hr]%(forEach_records_inv (λ st _, st) push_link).
  cbv beta in Hr.
  rewrite make_links_fold in Hr. injection Hr as -> ->. split; [done|].
  rewrite <- (list_fmap_id nds) at 1.
  rewrite (list_fmap_ext id (mark_if []) nds) by (intros; by rewrite mark_if_nil).
  by rewrite mark_dependency_foldl.
Qed.

(** ** GraphBuilder as a whole *)

Lemma names_make_nodes data names : name <$> make_nodes data names = names.
Proof.
  unfold make_nodes. rewrite <- list_fmap_compose.
  rewrite <- (list_fmap_id names) at 2. by apply list_fmap_ext.
Qed.

Lemma GraphBuilder_inv data g :
  GraphBuilder data = inr g →
  Forall well_shaped data ∧
  nodes g = mark_if (data ≫= deps_of) <$> make_nodes data (add_all [] (all_names data)) ∧
  links g = edges data.
Proof.
  unfold GraphBuilder.
  destruct (nodesSet data) as [e|names] eqn:Hn; simpl; [done|].
  apply nodesSet_inv in Hn as [Hw ->].
  destruct (make_links _ _) as [e|[ls nds]] eqn:Hl; simpl; [done|].
  apply make_links_inv in Hl as [-> ->].
  - intros [= <-]. done.
  - rewrite names_make_nodes. apply NoDup_add_all, NoDup_nil_2.
Qed.

(** Construction succeeds on every input whose records all carry an
    array of dependencies. *)
Lemma GraphBuilder_total data :
  Forall well_shaped data → ∃ g, GraphBuilder data = inr g.
Proof.
  intros Hw. unfold GraphBuilder, nodesSet, make_links.
  rewrite (forEach_records_ok (λ s it, Set_add (item_name it) s)
             (λ _ s dep, Set_add dep s)) by done.
  simpl.
  erewrite forEach_ext; last first.
  { intros st it. apply deps_forEach_ext with
      (g := λ st dep, mret (push_link it st dep)).
    by intros []. }
  rewrite (forEach_records_ok (λ st _, st) push_link) by done.
  simpl. destruct (foldl _ _ data) as [ls nds]. eauto.
Qed.

(** It throws a [TypeError] on every other input. *)
Lemma GraphBuilder_throws data :
  ¬ Forall well_shaped data → GraphBuilder data = inl TypeError.
Proof.
  intros Hn. unfold GraphBuilder, nodesSet.
  by rewrite (forEach_records_fail (λ s it, Set_add (item_name it) s)
                (λ _ s dep, Set_add dep s)).
Qed.

Lemma elem_of_nodes_inv data g nd :
  GraphBuilder data = inr g → nd ∈ nodes g →
  name nd ∈ all_names data ∧
  model_url nd = getModelUrl data (name nd) ∧
  isDependency nd = bool_decide (name nd ∈ data ≫= deps_of).
Proof.
  intros (_ & Hn & _)%GraphBuilder_inv. rewrite Hn.
  intros (nd0 & -> & Hin)%list_elem_of_fmap.
  unfold make_nodes in Hin. apply list_elem_of_fmap in Hin as (nm & -> & Hnm).
  rewrite name_mark_if, model_url_mark_if, isDependency_mark_if. simpl.
  apply elem_of_add_all in Hnm as [[]%elem_of_nil|Hnm]. done.
Qed.

Lemma elem_of_edges data l :
  l ∈ edges data ↔ ∃ it, it ∈ data ∧ source l = item_name it ∧ target l ∈ deps_of it.
Proof.
  unfold edges. rewrite list_elem_of_bind. split.
  - intros (it & (dep & -> & Hdep)%list_elem_of_fmap & Hit). eauto.
  - intros (it & Hit & Hs & Ht). exists it. split; [|done].
    apply list_elem_of_fmap. exists (target l). split; [|done].
    destruct l. simpl in *. by subst.
Qed.

Lemma elem_of_all_names data v :
  v ∈ all_names data ↔ ∃ it, it ∈ data ∧ (v = item_name it ∨ v ∈ deps_of it).
Proof.
  unfold all_names. rewrite list_elem_of_bind.
  split; intros (it & H1 & H2); exists it; rewrite elem_of_cons in *; tauto.
Qed.

Lemma names_nodes data g :
  GraphBuilder data = inr g → name <$> nodes g = add_all [] (all_names data).
Proof.
  intros (_ & -> & _)%GraphBuilder_inv. by rewrite names_mark_if, names_make_nodes.
Qed.

(** C1: a node is flagged [isDependency] exactly when its name is the
    target of at least one link of the constructed list. *)
Theorem isDependency_iff_target data g nd :
  GraphBuilder data = inr g → nd ∈ nodes g →
  isDependency nd = true ↔ ∃ l, l ∈ links g ∧ target l = name nd.
Proof.
  intros Hg Hnd. destruct (elem_of_nodes_inv _ _ _ Hg Hnd) as (_ & _ & ->).
  apply GraphBuilder_inv in Hg as (_ & _ & ->).
  rewrite bool_decide_eq_true, list_elem_of_bind. split.
  - intros (it & Hdep & Hit). exists (mkLink (item_name it) (name nd)).
    split; [|done]. apply elem_of_edges. eauto.
  - intros (l & (it & Hit & _ & Ht)%elem_of_edges & <-). eauto.
Qed.

(** C2: both ends of every link name a node of the output, and the links
    are, in order, one per pair of a record's name and one of its
    dependencies, repeated pairs included. *)
Theorem links_resolve data g :
  GraphBuilder data = inr g →
  (∀ l, l ∈ links g →
     (∃ n, n ∈ nodes g ∧ name n = source l) ∧
     (∃ n, n ∈ nodes g ∧ name n = target l)) ∧
  links g = data ≫= (λ it, mkLink (item_name it) <$> deps_of it) ∧
  ∀ l, count_occ Link_eq_dec (links g) l =
       sum_list ((λ it, if decide (item_name it = source l)
                        then count_occ jsval_eq_dec (deps_of it) (target l)
                        else 0) <$> data).
Proof.
  intros Hg. pose proof (names_nodes _ _ Hg) as Hnames.
  apply GraphBuilder_inv in Hg as (_ & _ & Hl). rewrite Hl.
  split; [|split; [done|]].
  - intros l (it & Hit & Hs & Ht)%elem_of_edges.
    assert (∀ v, v ∈ all_names data → ∃ n, n ∈ nodes g ∧ name n = v) as Hres.
    { intros v Hv.
      assert (v ∈ name <$> nodes g) as (n & -> & Hn)%list_elem_of_fmap; [|eauto].
      rewrite Hnames. apply elem_of_add_all. auto. }
    split; apply Hres, elem_of_all_names; exists it; rewrite <- ?Hs; auto.
  - intros l. clear. unfold edges.
    induction data as [|it data IH]; csimpl; [done|].
    rewrite count_occ_app, IH. f_equal.
    destruct l as [s t]. simpl. clear.
    induction (deps_of it) as [|d deps IH].
    + simpl. by case_decide.
    + rewrite fmap_cons.
      destruct (decide (mkLink (item_name it) d = mkLink s t)) as [Heq|Hne].
      * rewrite count_occ_cons_eq, IH by done. injection Heq as -> ->.
        rewrite !decide_True by done. by rewrite count_occ_cons_eq.
      * rewrite count_occ_cons_neq, IH by done. case_decide as Hs; [|done].
        rewrite count_occ_cons_neq; [done|]. congruence.
Qed.

(** C3: there is exactly one node per distinct name among the names of
    the records and the entries of their dependencies. *)
Theorem nodes_distinct_names data g :
  GraphBuilder data = inr g →
  length (nodes g) = length (remove_dups (all_names data)) ∧
  NoDup (name <$> nodes g) ∧
  ∀ v, v ∈ name <$> nodes g ↔ v ∈ all_names data.
Proof.
  intros Hnames%names_nodes.
  assert (NoDup (name <$> nodes g)) as Hnd.
  { rewrite Hnames. apply NoDup_add_all, NoDup_nil_2. }
  assert (∀ v, v ∈ name <$> nodes g ↔ v ∈ all_names data) as Hel.
  { intros v. rewrite Hnames, elem_of_add_all, elem_of_nil. tauto. }
  split; [|done].
  rewrite <- (length_fmap name). apply Permutation_length, NoDup_Permutation.
  - done.
  - apply NoDup_remove_dups.
  - intros v. by rewrite Hel, elem_of_remove_dups.
Qed.

Lemma elem_of_item_names (data : list item) nm :
  nm ∈ item_name <$> data ↔ ∃ it, it ∈ data ∧ item_name it = nm.
Proof. rewrite list_elem_of_fmap. split; intros (it & ? & ?); eauto. Qed.

Lemma getModelUrl_spec data nm :
  getModelUrl data nm =
  if decide (nm ∈ item_name <$> data)
  then Some (model_report +:+ to_string nm) else None.
Proof.
  unfold getModelUrl. destruct (list_find _ data) as [[i it]|] eqn:Hf.
  - apply list_find_Some in Hf as (Hi & Hname & _).
    rewrite decide_True; [done|]. apply elem_of_item_names. exists it. split; [|done].
    by eapply list_elem_of_lookup_2.
  - apply list_find_None in Hf. rewrite decide_False; [done|].
    intros (it & Hit & Hname)%elem_of_item_names.
    rewrite Forall_forall in Hf. by eapply Hf.
Qed.

(** C4: [model_url] of a node is non-null exactly when some record has the
    node's name; it is then the base path followed by the name. *)
Theorem model_url_iff_record data g nd :
  GraphBuilder data = inr g → nd ∈ nodes g →
  (model_url nd ≠ None ↔ ∃ it, it ∈ data ∧ item_name it = name nd) ∧
  (∀ u, model_url nd = Some u → u = "/BeSLighthouse/model_report" +:+ to_string (name nd)) ∧
  ((¬ ∃ it, it ∈ data ∧ item_name it = name nd) → model_url nd = None).
Proof.
  intros Hg Hnd. destruct (elem_of_nodes_inv _ _ _ Hg Hnd) as (_ & -> & _).
  rewrite getModelUrl_spec, <- elem_of_item_names. case_decide as H; split_and!.
  - split; [done|]. by intros _.
  - by intros u [= <-].
  - done.
  - split; [intros Hn; by destruct Hn | intros Hin; by destruct H].
  - done.
  - done.
Qed.

(** *** The example of the specification, as an instance *)

Lemma nodeB_in_graphAB : nodeB ∈ nodes graphAB.
Proof. right. left. Defined.

Lemma isDependency_iff_target_witness :
  isDependency nodeB = true ↔ ∃ l, l ∈ links graphAB ∧ target l = name nodeB.
Proof.
  apply (isDependency_iff_target [itemA; itemB] graphAB nodeB);
    [reflexivity | exact nodeB_in_graphAB].
Defined.

Lemma links_resolve_witness :
  (∀ l, l ∈ links graphAB →
     (∃ n, n ∈ nodes graphAB ∧ name n = source l) ∧
     (∃ n, n ∈ nodes graphAB ∧ name n = target l)) ∧
  links graphAB = [itemA; itemB] ≫= (λ it, mkLink (item_name it) <$> deps_of it) ∧
  ∀ l, count_occ Link_eq_dec (links graphAB) l =
       sum_list ((λ it, if decide (item_name it = source l)
                        then count_occ jsval_eq_dec (deps_of it) (target l)
                        else 0) <$> [itemA; itemB]).
Proof. apply (links_resolve [itemA; itemB] graphAB). reflexivity. Defined.

Lemma nodes_distinct_names_witness :
  length (nodes graphAB) = length (remove_dups (all_names [itemA; itemB])) ∧
  NoDup (name <$> nodes graphAB) ∧
  ∀ v, v ∈ name <$> nodes graphAB ↔ v ∈ all_names [itemA; itemB].
Proof. apply (nodes_distinct_names [itemA; itemB] graphAB). reflexivity. Defined.

Lemma model_url_iff_record_witness :
  (model_url nodeB ≠ None ↔ ∃ it, it ∈ [itemA; itemB] ∧ item_name it = name nodeB) ∧
  (∀ u, model_url nodeB = Some u →
        u = "/BeSLighthouse/model_report" +:+ to_string (name nodeB)) ∧
  ((¬ ∃ it, it ∈ [itemA; itemB] ∧ item_name it = name nodeB) → model_url nodeB = None).
Proof.
  apply (model_url_iff_record [itemA; itemB] graphAB nodeB);
    [reflexivity | exact nodeB_in_graphAB].
Defined.

(** A dependency that is no record: its node has no [model_url]. *)
Example model_url_null :
  GraphBuilder [itemA] =
  inr (mkGraph
    [ nodeA;
      mkNode (JStr "B") "#0077cc" None true None None None None None None ]
    [ mkLink (JStr "A") (JStr "B") ]).
Proof. reflexivity. Qed.

(** ** Clicks *)

(** C5, as stated, fails: the address opened is built from the name by
    the template of [handleNodeClick], which has a separator that
    [model_url] lacks. *)
Lemma click_opens_other_url :
  GraphBuilder [itemA; itemB] = inr graphAB ∧ nodeA ∈ nodes graphAB ∧
  model_url nodeA = Some "/BeSLighthouse/model_reportA" ∧
  active click = 0 ∧
  handleNodeClick click nodeA =
    [window_open "/BeSLighthouse/model_report/:A" "_blank"] ∧
  ∀ t, handleNodeClick click nodeA ≠
    [window_open "/BeSLighthouse/model_reportA" t].
Proof. split_and!; try reflexivity; [left | intros t; discriminate]. Qed.

Lemma truthy_model_url data g nd :
  GraphBuilder data = inr g → nd ∈ nodes g →
  truthy_url (model_url nd) = bool_decide (model_url nd ≠ None).
Proof.
  intros Hg Hnd. destruct (elem_of_nodes_inv _ _ _ Hg Hnd) as (_ & -> & _).
  rewrite getModelUrl_spec. case_decide; [|done]. unfold truthy_url.
  rewrite bool_decide_false by (intros [=]). by rewrite bool_decide_true.
Qed.

(** C5, amended: a click on a node of the graph opens one window when
    [model_url] is non-null and [event.active] is falsy, at the report
    route followed by the name of the node; any other click opens
    nothing. *)
Theorem click_navigates data g nd event :
  GraphBuilder data = inr g → nd ∈ nodes g →
  (model_url nd ≠ None ∧ active event = 0 →
     handleNodeClick event nd =
       [window_open ("/BeSLighthouse/model_report/:" +:+ to_string (name nd)) "_blank"]) ∧
  (model_url nd = None ∨ active event ≠ 0 → handleNodeClick event nd = []).
Proof.
  intros Hg Hnd. unfold handleNodeClick.
  rewrite (truthy_model_url _ _ _ Hg Hnd). split.
  - intros [Hu Ha]. by rewrite !bool_decide_true.
  - intros [Hu|Ha].
    + rewrite (bool_decide_false (model_url nd ≠ None)); [done|]. by intros [].
    + rewrite (bool_decide_false (active event = 0)) by done. by rewrite andb_false_r.
Qed.

Lemma click_navigates_witness :
  (model_url nodeB ≠ None ∧ active click = 0 →
     handleNodeClick click nodeB =
       [window_open ("/BeSLighthouse/model_report/:" +:+ to_string (name nodeB)) "_blank"]) ∧
  (model_url nodeB = None ∨ active click ≠ 0 → handleNodeClick click nodeB = []).
Proof.
  apply (click_navigates [itemA; itemB] graphAB nodeB click);
    [reflexivity | exact nodeB_in_graphAB].
Defined.

(** ** Malformed records *)

(** C6, as stated, fails: a record without [name] is added to the set as
    [undefined], and construction goes through. *)
Lemma missing_name_builds :
  item_name missing_name = JUndefined ∧
  GraphBuilder [missing_name] =
  inr (mkGraph
    [ mkNode JUndefined "#0077cc" (Some "/BeSLighthouse/model_reportundefined") false
        None None None None None None ]
    []) ∧
  GraphDisplay (inr (mkResponse 200 (inr [missing_name]))) =
  mkOutcome
    (Some (mkGraph
      [ mkNode JUndefined "#0077cc" (Some "/BeSLighthouse/model_reportundefined") false
          None None None None None None ]
      []))
    [].
Proof. split_and!; reflexivity. Qed.

Lemma not_well_shaped data :
  Exists (λ it, item_dependencies it = None) data → ¬ Forall well_shaped data.
Proof.
  intros (it & Hit & Hnone)%Exists_exists Hw.
  rewrite Forall_forall in Hw. destruct (Hw it Hit) as [deps Hd]. congruence.
Qed.

(** C6, amended: a record whose [dependencies] is not an array makes
    construction throw, the engine's [TypeError]; nothing is rendered
    from a response carrying such a record. *)
Theorem dependencies_not_array_aborts data response :
  json response = inr data →
  Exists (λ it, item_dependencies it = None) data →
  GraphBuilder data = inl TypeError ∧
  rendered (GraphDisplay (inr response)) = None.
Proof.
  intros Hj Hex%not_well_shaped. pose proof (GraphBuilder_throws _ Hex) as Hthrow.
  split; [done|]. unfold GraphDisplay, then_json. simpl.
  destruct (ok response); simpl; [|done]. by rewrite Hj; simpl; rewrite Hthrow.
Qed.

Lemma dependencies_not_array_aborts_witness :
  GraphBuilder [itemA_only_name] = inl TypeError ∧
  rendered (GraphDisplay (inr (mkResponse 200 (inr [itemA_only_name])))) = None.
Proof.
  apply (dependencies_not_array_aborts [itemA_only_name]
           (mkResponse 200 (inr [itemA_only_name]))); [reflexivity|].
  left. reflexivity.
Defined.

Example only_name_logged :
  GraphDisplay (inr (mkResponse 200 (inr [itemB; itemA_only_name]))) =
  mkOutcome None [("Error fetching data:", TypeError)].
Proof. reflexivity. Qed.

(** ** Failed fetches *)

(** C7, as stated, fails: a status of 201 is not 200, yet [response.ok]
    holds and the graph is built. *)
Lemma status_201_builds :
  status (mkResponse 201 (inr [itemA; itemB])) ≠ 200%N ∧
  GraphDisplay (inr (mkResponse 201 (inr [itemA; itemB]))) =
  mkOutcome (Some graphAB) [].
Proof. split; [discriminate|reflexivity]. Qed.

Lemma ok_false response :
  ok response = false ↔ (status response < 200 ∨ 299 < status response)%N.
Proof.
  unfold ok. rewrite andb_false_iff, !bool_decide_eq_false. lia.
Qed.

(** C7, amended: a response whose status is outside 200-299 yields an
    [Error] whose message ends with the status, a body that does not
    parse yields the parser's [SyntaxError], and a rejected [fetch] its
    own error; in each case the [catch] handler writes the error to the
    console and nothing else happens: no graph is built. *)
Theorem failed_fetch_logged fetched :
  match fetched with
  | inl _ => True
  | inr response =>
      (status response < 200 ∨ 299 < status response)%N ∨
      ∃ diagnostic, json response = inl diagnostic
  end →
  ∃ error,
    GraphDisplay fetched = mkOutcome None [("Error fetching data:", error)] ∧
    match fetched with
    | inl e => error = e
    | inr response =>
        if ok response
        then ∃ diagnostic,
               json response = inl diagnostic ∧ error = SyntaxError diagnostic
        else error = Error ("Failed to fetch data. Status: " +:+ pretty (status response))
    end.
Proof.
  destruct fetched as [e|response]; simpl.
  - intros _. exists e. done.
  - intros H. unfold GraphDisplay, then_json. simpl.
    destruct (ok response) eqn:Hok; simpl.
    + destruct H as [H%ok_false|[diagnostic Hd]]; [congruence|].
      rewrite Hd. simpl. eauto.
    + eauto.
Qed.

Lemma failed_fetch_logged_witness :
  ∃ error,
    GraphDisplay (inr (mkResponse 500 (inr [itemA; itemB]))) =
      mkOutcome None [("Error fetching data:", error)] ∧
    error = Error "Failed to fetch data. Status: 500".
Proof.
  apply (failed_fetch_logged (inr (mkResponse 500 (inr [itemA; itemB])))).
  left. right. reflexivity.
Defined.

(** ** Rendered coordinates *)

Lemma or_zero_truthy f : truthy f = true → or_zero (Some f) = f.
Proof. intros H. unfold or_zero. by rewrite H. Qed.

Lemma or_zero_falsy v :
  v = None ∨ (∃ f, v = Some f ∧ truthy f = false) → or_zero v = 0%float.
Proof. intros [->|(f & -> & H)]; [done|]. unfold or_zero. by rewrite H. Qed.

Lemma ticked_unassigned links nodes i d :
  nodes !! i = Some d →
  or_zero (x d) = 0%float → or_zero (y d) = 0%float →
  ticked links (<[i := set_position None None d]> nodes) = ticked links nodes.
Proof.
  intros Hi Hx Hy.
  assert (∀ j, or_zero (node_x (<[i := set_position None None d]> nodes) j)
               = or_zero (node_x nodes j) ∧
               or_zero (node_y (<[i := set_position None None d]> nodes) j)
               = or_zero (node_y nodes j)) as Hj.
  { intros j. unfold node_x, node_y. destruct (decide (i = j)) as [<-|Hij].
    - rewrite list_lookup_insert_eq by (by eapply lookup_lt_Some).
      rewrite Hi. simpl. by rewrite Hx, Hy.
    - by rewrite list_lookup_insert_ne. }
  assert ((λ d, mkPoint (or_zero (x d)) (or_zero (y d))) <$>
            <[i := set_position None None d]> nodes =
          (λ d, mkPoint (or_zero (x d)) (or_zero (y d))) <$> nodes) as Hn.
  { rewrite list_fmap_insert. simpl. apply list_insert_id.
    rewrite list_lookup_fmap, Hi. simpl. by rewrite Hx, Hy. }
  unfold ticked. rewrite Hn. f_equal.
  apply list_fmap_ext. intros k l _.
  destruct (Hj (source_index l)) as [-> ->].
  destruct (Hj (target_index l)) as [-> ->]. done.
Qed.

(** C10: each tick, every circle, label and line end gets the [x]
    (respectively [y]) of its node when that number is truthy and 0
    otherwise; an unassigned coordinate gives 0, and a node placed at 0
    is drawn exactly as if its position were unassigned. *)
Theorem ticked_coordinates links nodes i d :
  nodes !! i = Some d →
  let frame := ticked links nodes in
  let at_node := λ v : option float,
    match v with
    | Some f => if is_zero f || is_nan f then 0%float else f
    | None => 0%float
    end in
  node_attrs frame !! i = Some (mkPoint (at_node (x d)) (at_node (y d))) ∧
  nodeName_attrs frame !! i = Some (mkPoint (at_node (x d)) (at_node (y d))) ∧
  (∀ k l, links !! k = Some l →
     (source_index l = i →
        ∃ a, link_attrs frame !! k = Some a ∧
             x1 a = at_node (x d) ∧ y1 a = at_node (y d)) ∧
     (target_index l = i →
        ∃ a, link_attrs frame !! k = Some a ∧
             x2 a = at_node (x d) ∧ y2 a = at_node (y d))) ∧
  (x d = Some 0%float → y d = Some 0%float →
     ticked links (<[i := set_position None None d]> nodes) = frame).
Proof.
  intros Hi frame at_node.
  assert (∀ v, or_zero v = at_node v) as Hz.
  { intros [f|]; [|done]. unfold or_zero, at_node, truthy.
    by destruct (is_zero f || is_nan f). }
  subst frame. unfold ticked. simpl. rewrite !list_lookup_fmap, Hi. simpl.
  rewrite !Hz. split_and!; [done|done| |].
  - intros k l Hk. unfold node_x, node_y.
    split; intros Hl; eexists; rewrite list_lookup_fmap, Hk; simpl;
      rewrite Hl, Hi; simpl; rewrite !Hz; eauto.
  - intros Hx Hy. apply (ticked_unassigned links nodes i d Hi); by rewrite ?Hx, ?Hy.
Qed.

Lemma ticked_coordinates_witness :
  ticked [mkSimLink 0 1] [node_at (Some 0%float) (Some 0%float); node_at (Some 3%float) None]
  = mkFrame [mkLine 0 0 3 0] [mkPoint 0 0; mkPoint 3 0] [mkPoint 0 0; mkPoint 3 0] ∧
  ticked [mkSimLink 0 1] [node_at None None; node_at (Some 3%float) None] =
  ticked [mkSimLink 0 1] [node_at (Some 0%float) (Some 0%float); node_at (Some 3%float) None].
Proof.
  split; [reflexivity|].
  apply (ticked_coordinates [mkSimLink 0 1]
           [node_at (Some 0%float) (Some 0%float); node_at (Some 3%float) None]
           0 (node_at (Some 0%float) (Some 0%float)) eq_refl); reflexivity.
Defined.

Example or_zero_nan : or_zero (Some nan) = 0%float.
Proof. reflexivity. Qed.

Example or_zero_neg_zero : or_zero (Some (-0)%float) = 0%float.
Proof. reflexivity. Qed.

(** ** Pinning *)

Lemma tick_lookup s d n :
  sim_nodes s !! d = Some n →
  sim_nodes (tick s) !! d =
  Some (move (force s (Qred (alpha s + (alphaTarget s - alpha s) * alphaDecay s))
                (sim_nodes s) d) n).
Proof. intros Hd. unfold tick. simpl. by rewrite list_lookup_imap, Hd. Qed.

Lemma move_pinned dv n a b :
  fx n = Some a → fy n = Some b →
  x (move dv n) = Some a ∧ y (move dv n) = Some b ∧
  fx (move dv n) = Some a ∧ fy (move dv n) = Some b.
Proof.
  intros Hx Hy. unfold move, integrate. rewrite Hx, Hy. done.
Qed.

Lemma pinned_at_tick d a b s :
  pinned_at d a b s →
  pinned_at d a b (tick s) ∧
  ∃ n, sim_nodes (tick s) !! d = Some n ∧ x n = Some a ∧ y n = Some b.
Proof.
  intros (n & Hd & Hx & Hy). unfold pinned_at. rewrite (tick_lookup _ _ _ Hd).
  destruct (move_pinned (force s (Qred (alpha s + (alphaTarget s - alpha s) * alphaDecay s))
    (sim_nodes s) d) n a b Hx Hy) as (? & ? & ? & ?).
  split; eexists; split_and!; eauto.
Qed.

Lemma pinned_at_update_other f j d a b s :
  j ≠ d → pinned_at d a b s → pinned_at d a b (update_node f j s).
Proof.
  intros Hjd (n & Hd & Hx & Hy). exists n. unfold update_node. simpl.
  by rewrite list_lookup_alter_ne.
Qed.

Lemma pinned_at_run d a b s i :
  subject i ≠ Some d → pinned_at d a b s → pinned_at d a b (run s i).
Proof.
  intros Hsub Hp. destruct i as [|event j|event j|event j]; simpl in *.
  - by apply pinned_at_tick.
  - unfold dragstarted. apply pinned_at_update_other; [congruence|].
    by case_bool_decide.
  - unfold dragged. apply pinned_at_update_other; [congruence|done].
  - unfold dragended. apply pinned_at_update_other; [congruence|].
    by case_bool_decide.
Qed.

Lemma pinned_at_dragged event d s n :
  sim_nodes s !! d = Some n →
  pinned_at d (ev_x event) (ev_y event) (dragged event d s).
Proof.
  intros Hd. unfold dragged, update_node, pinned_at. simpl.
  rewrite list_lookup_alter_eq, Hd. simpl. eauto.
Qed.

(** C8: once a drag event has moved node [d], whatever the forces and
    whatever happens to the other nodes in between, every tick leaves
    the node exactly at the coordinates of that event. *)
Theorem dragged_node_follows_pointer s d n event inputs :
  sim_nodes s !! d = Some n →
  Forall (λ i, subject i ≠ Some d) inputs →
  ∃ n', sim_nodes (tick (foldl run (dragged event d s) inputs)) !! d = Some n' ∧
        x n' = Some (ev_x event) ∧ y n' = Some (ev_y event) ∧
        fx n' = Some (ev_x event) ∧ fy n' = Some (ev_y event).
Proof.
  intros Hd Hin.
  assert (pinned_at d (ev_x event) (ev_y event) (foldl run (dragged event d s) inputs))
    as Hp.
  { pose proof (pinned_at_dragged event d s n Hd) as H0.
    revert H0. generalize (dragged event d s).
    induction Hin as [|i inputs Hi _ IH]; intros s0 H0; simpl; [done|].
    by apply IH, pinned_at_run. }
  destruct (pinned_at_tick _ _ _ _ Hp) as [(n1 & H1 & Hfx & Hfy) (n2 & H2 & Hx & Hy)].
  exists n2. rewrite H2 in H1. injection H1 as ->. done.
Qed.

(** ** Decay of alpha *)

Lemma nat_Q_S n : (nat_Q (S n) == nat_Q n + 1)%Q.
Proof.
  unfold nat_Q. rewrite Nat2Z.inj_succ, <- Z.add_1_r, inject_Z_plus. reflexivity.
Qed.

Lemma nat_Q_nonneg n : (0 <= nat_Q n)%Q.
Proof.
  unfold nat_Q. change 0%Q with (inject_Z 0). rewrite <- Zle_Qle. lia.
Qed.

Lemma decaying_start floor decay f nds :
  decaying floor decay 0 (forceSimulation floor decay f nds).
Proof.
  constructor; cbn [alpha alphaMin alphaDecay alphaTarget running forceSimulation];
    try done.
  - intros _. change (nat_Q 0) with 0%Q. lra.
  - auto.
Qed.

Lemma alpha_step s :
  alphaTarget s = 0%Q → running s = true →
  (alpha (step s) == alpha s * (1 - alphaDecay s))%Q.
Proof.
  intros Ht Hr. unfold step. rewrite Hr.
  destruct (Qlt_le_dec _ _); simpl; rewrite Qred_correct, Ht; ring.
Qed.

Lemma decaying_step floor decay n s :
  (0 <= decay)%Q → (decay <= 1)%Q →
  decaying floor decay n s → decaying floor decay (S n) (step s).
Proof.
  intros Hd0 Hd1 [Hf Hd Ht H0 Hb Ha Hl].
  destruct (running s) eqn:Hr.
  - pose proof (alpha_step s Ht Hr) as Hal. rewrite Hd in Hal.
    specialize (Hb eq_refl).
    assert (0 <= alpha (step s))%Q as H0'.
    { rewrite Hal. apply Qmult_le_0_compat; lra. }
    assert (alpha (step s) * (1 + nat_Q (S n) * decay) <= 1)%Q as Hb'.
    { rewrite Hal, nat_Q_S. pose proof (nat_Q_nonneg n) as Hn.
      assert (0 <= alpha s * decay * decay * (nat_Q n + 1))%Q as Hsq.
      { repeat apply Qmult_le_0_compat; lra. }
      lra. }
    unfold step in *. rewrite Hr in *.
    destruct (Qlt_le_dec _ _) as [Hlt|Hge]; simpl in *.
    + constructor; simpl; try done. by rewrite <- Hf.
    + constructor; simpl; try done.
      * intros _. right. by rewrite <- Hf.
      * by rewrite Hr.
  - unfold step. rewrite Hr. constructor; try done; by rewrite Hr.
Qed.

Lemma decaying_steps floor decay f nds n :
  (0 <= decay)%Q → (decay <= 1)%Q →
  decaying floor decay n (steps n (forceSimulation floor decay f nds)).
Proof.
  intros Hd0 Hd1. induction n as [|n IH]; [apply decaying_start|].
  unfold steps in *. simpl. by apply decaying_step.
Qed.

Lemma ticks_bound_spec floor decay :
  (0 < floor)%Q → (0 < decay)%Q →
  (1 <= nat_Q (ticks_bound floor decay) * decay * floor)%Q.
Proof.
  intros Hf Hd. unfold ticks_bound, nat_Q.
  assert (0 < decay * floor)%Q as Hdf by (apply Qmult_lt_0_compat; lra).
  set (q := (/ (decay * floor))%Q).
  assert (q <= inject_Z (Z.of_nat (S (Z.to_nat (Qceiling q)))))%Q as Hq.
  { apply Qle_trans with (inject_Z (Qceiling q)); [apply Qle_ceiling|].
    rewrite <- Zle_Qle. lia. }
  assert (q * (decay * floor) == 1)%Q as Hinv.
  { unfold q. rewrite Qmult_comm. apply Qmult_inv_r. lra. }
  rewrite <- Qmult_assoc, <- Hinv.
  apply Qmult_le_compat_r; [done|lra].
Qed.

Lemma stopped_steps s n : running s = false → steps n s = s.
Proof.
  intros Hr. induction n as [|n IH]; [done|].
  unfold steps in *. simpl. rewrite IH. unfold step. by rewrite Hr.
Qed.

Lemma steps_add n m s : steps (n + m) s = steps n (steps m s).
Proof. unfold steps. apply Nat.iter_add. Qed.

(** C9: from alpha 1 and with no drag, alpha never increases from one
    tick to the next; after at most [ticks_bound] firings of the timer
    alpha is below the floor and the loop has stopped, and from then on
    the state, positions included, no longer changes. *)
Theorem alpha_decays_and_stops floor decay f nds :
  (0 < floor)%Q → (0 < decay)%Q → (decay <= 1)%Q →
  let s := λ n, steps n (forceSimulation floor decay f nds) in
  (∀ n, alpha (s (S n)) <= alpha (s n))%Q ∧
  (alpha (s (ticks_bound floor decay)) < floor)%Q ∧
  running (s (ticks_bound floor decay)) = false ∧
  ∀ n, (ticks_bound floor decay ≤ n)%nat →
       s n = s (ticks_bound floor decay) ∧
       sim_nodes (s n) = sim_nodes (s (ticks_bound floor decay)).
Proof.
  intros Hf Hd0 Hd1 s.
  assert (∀ n, decaying floor decay n (s n)) as Hinv.
  { intros n. apply decaying_steps; lra. }
  assert (running (s (ticks_bound floor decay)) = false) as Hstop.
  { destruct (running (s (ticks_bound floor decay))) eqn:Hr; [|done]. exfalso.
    destruct (Hinv (ticks_bound floor decay)) as [_ _ _ H0 Hb Ha _].
    specialize (Hb Hr). destruct (Ha Hr) as [Hz|Hge]; [done|].
    pose proof (ticks_bound_spec floor decay Hf Hd0) as Hn.
    pose proof (nat_Q_nonneg (ticks_bound floor decay)) as Hn0.
    assert (floor * (1 + nat_Q (ticks_bound floor decay) * decay)
            <= alpha (s (ticks_bound floor decay))
               * (1 + nat_Q (ticks_bound floor decay) * decay))%Q as Hmul.
    { apply Qmult_le_compat_r; [done|].
      assert (0 <= nat_Q (ticks_bound floor decay) * decay)%Q
        by (apply Qmult_le_0_compat; lra).
      lra. }
    lra. }
  split_and!.
  - intros n. subst s. simpl.
    destruct (Hinv n) as [_ Hd Ht H0 _ _ _]. fold (steps n (forceSimulation floor decay f nds)).
    change (Nat.iter (S n) step ?x) with (step (steps n x)).
    destruct (running (steps n (forceSimulation floor decay f nds))) eqn:Hr.
    + rewrite (alpha_step _ Ht Hr), Hd.
      assert (0 <= alpha (steps n (forceSimulation floor decay f nds)) * decay)%Q
        by (apply Qmult_le_0_compat; lra).
      lra.
    + unfold step. rewrite Hr. lra.
  - by apply (decaying_below _ _ _ _ (Hinv (ticks_bound floor decay))).
  - done.
  - intros n Hn. replace n with ((n - ticks_bound floor decay) + ticks_bound floor decay) by lia.
    subst s. simpl. rewrite steps_add, stopped_steps by done. done.
Qed.

(** *** Instances *)

Lemma dragged_node_follows_pointer_witness :
  ∃ n', sim_nodes (tick (foldl run
            (dragged pointer 0 (forceSimulation (1 # 1000) (228 # 10000) push [free_node]))
            [Tick; Tick])) !! 0 = Some n' ∧
        x n' = Some 5%float ∧ y n' = Some 7%float ∧
        fx n' = Some 5%float ∧ fy n' = Some 7%float.
Proof.
  apply (dragged_node_follows_pointer
           (forceSimulation (1 # 1000) (228 # 10000) push [free_node])
           0 free_node pointer [Tick; Tick]); [reflexivity|].
  repeat (constructor; [discriminate|]). constructor.
Defined.

(** A node that is not pinned does move under the same force. *)
Example free_node_moves :
  (λ n, (x n, y n)) <$>
    sim_nodes (tick (forceSimulation (1 # 1000) (228 # 10000) push [free_node])) =
  [(Some 2%float, Some 3%float)].
Proof. reflexivity. Qed.

(** After [dragended] the node is free again. *)
Example released_node_moves :
  (λ n, (x n, y n)) <$>
    sim_nodes (tick (dragended pointer 0 (tick
        (dragged pointer 0 (forceSimulation (1 # 1000) (228 # 10000) push [free_node]))))) =
  [(Some 6%float, Some 8%float)].
Proof. reflexivity. Qed.

Lemma alpha_decays_and_stops_witness :
  let s := λ n, steps n (forceSimulation (1 # 1000) (228 # 10000) no_force [free_node]) in
  (∀ n, alpha (s (S n)) <= alpha (s n))%Q ∧
  (alpha (s (ticks_bound (1 # 1000) (228 # 10000))) < 1 # 1000)%Q ∧
  running (s (ticks_bound (1 # 1000) (228 # 10000))) = false ∧
  ∀ n, (ticks_bound (1 # 1000) (228 # 10000) ≤ n)%nat →
       s n = s (ticks_bound (1 # 1000) (228 # 10000)) ∧
       sim_nodes (s n) = sim_nodes (s (ticks_bound (1 # 1000) (228 # 10000))).
Proof.
  apply (alpha_decays_and_stops (1 # 1000) (228 # 10000) no_force [free_node]);
    [reflexivity | reflexivity | discriminate].
Defined.

(** With a decay of one half and a floor of 0.001 the loop makes
    exactly ten ticks. *)
Example stops_after_10_ticks :
  let s := λ n, steps n (forceSimulation (1 # 1000) (1 # 2) no_force [free_node]) in
  running (s 9) = true ∧ running (s 10) = false ∧
  alpha (s 10) = (1 # 1024)%Q ∧ s 11 = s 10.
Proof. vm_compute. done. Qed.

(** A drag start with no other gesture active sets the loop going again. *)
Lemma dragstarted_restarts event d s :
  active event = 0 →
  running (dragstarted event d s) = true ∧
  alphaTarget (dragstarted event d s) = (1 # 2)%Q.
Proof. intros Ha. unfold dragstarted. by rewrite bool_decide_true. Qed.

(** * Further properties *)

(** ** Outcome of the construction *)

Lemma Exists_not_array data :
  Exists (λ it, item_dependencies it = None) data ↔ ¬ Forall well_shaped data.
Proof.
  split; [apply not_well_shaped|].
  intros Hn. induction data as [|it data IH].
  - destruct Hn. constructor.
  - destruct (item_dependencies it) as [deps|] eqn:Hd; [|by left].
    right. apply IH. intros Hw. apply Hn. constructor; [|done].
    unfold well_shaped. by rewrite Hd.
Qed.

(** The only exception of [GraphBuilder] is the [TypeError] of a
    [dependencies] that is no array, and it is thrown for every input
    with such a record; every other input gives a graph. *)
Theorem GraphBuilder_outcome data :
  (GraphBuilder data = inl TypeError ↔
     Exists (λ it, item_dependencies it = None) data) ∧
  (∀ e, GraphBuilder data = inl e → e = TypeError) ∧
  ((∃ g, GraphBuilder data = inr g) ↔ Forall well_shaped data).
Proof.
  assert (Forall well_shaped data ∨ ¬ Forall well_shaped data) as [Hw|Hn].
  { destruct (decide (Forall (λ it, is_Some (item_dependencies it)) data)); auto. }
  - destruct (GraphBuilder_total data Hw) as [g Hg]. rewrite Hg. split_and!.
    + split; [done|]. by intros Hex%not_well_shaped.
    + done.
    + split; eauto.
  - rewrite (GraphBuilder_throws data Hn). split_and!.
    + split; [|done]. intros _. by apply Exists_not_array.
    + by intros e [= <-].
    + split; [by intros [g Hg]|done].
Qed.

(** ** Order of the nodes *)

Lemma add_all_first_seen l s :
  add_all s l = s ++ filter (λ w, w ∉ s) (first_seen l).
Proof.
  revert s. induction l as [|v l IH]; intros s.
  - simpl. by rewrite app_nil_r.
  - change (add_all s (v :: l)) with (add_all (Set_add v s) l).
    rewrite IH. unfold Set_add. simpl first_seen. case_decide as Hv.
    + rewrite filter_cons_False by (intros Hn; by apply Hn).
      f_equal. rewrite list_filter_filter. apply list_filter_iff.
      intros w. split; [|by intros []]. intros Hw. split; [done|]. by intros ->.
    + rewrite filter_cons_True by done.
      rewrite <- app_assoc. simpl. do 2 f_equal.
      rewrite list_filter_filter. apply list_filter_iff.
      intros w. rewrite elem_of_app, list_elem_of_singleton. tauto.
Qed.

(** The nodes come in the order in which their names first appear in
    the input, a record's own name before its dependencies. *)
Theorem nodes_first_seen data g :
  GraphBuilder data = inr g →
  name <$> nodes g = first_seen (all_names data).
Proof.
  intros ->%names_nodes. rewrite add_all_first_seen. simpl.
  induction (first_seen (all_names data)) as [|v l IH]; [done|].
  rewrite filter_cons_True by apply not_elem_of_nil. by rewrite IH.
Qed.

Lemma nodes_first_seen_witness :
  name <$> nodes graphAB = first_seen (all_names [itemA; itemB]).
Proof. apply (nodes_first_seen [itemA; itemB] graphAB). reflexivity. Defined.

Example first_seen_order :
  first_seen [JStr "A"; JStr "B"; JStr "A"; JStr "C"; JStr "B"] =
  [JStr "A"; JStr "B"; JStr "C"].
Proof. reflexivity. Qed.

(** ** Colours and cursors *)

Lemma targets_edges data : target <$> edges data = data ≫= deps_of.
Proof.
  unfold edges. induction data as [|it data IH]; [done|].
  rewrite !bind_cons, fmap_app, IH. f_equal.
  rewrite <- list_fmap_compose. rewrite <- (list_fmap_id (deps_of it)) at 2.
  by apply list_fmap_ext.
Qed.

Lemma isDependency_targets data g nd :
  GraphBuilder data = inr g → nd ∈ nodes g →
  isDependency nd = bool_decide (name nd ∈ target <$> links g).
Proof.
  intros Hg Hnd. destruct (elem_of_nodes_inv _ _ _ Hg Hnd) as (_ & _ & ->).
  apply GraphBuilder_inv in Hg as (_ & _ & ->). by rewrite targets_edges.
Qed.

(** A circle is filled with the accent colour, and its label with the
    lighter grey, exactly when some link points to its node; every other
    circle takes the current colour and the darker label. *)
Theorem fill_iff_target data g nd :
  GraphBuilder data = inr g → nd ∈ nodes g →
  (node_fill nd = "#EC5800" ∧ nodeName_fill nd = "#34495e" ∧
   ∃ l, l ∈ links g ∧ target l = name nd) ∨
  (node_fill nd = "currentColor" ∧ nodeName_fill nd = "#2c3e50" ∧
   ∀ l, l ∈ links g → target l ≠ name nd).
Proof.
  intros Hg Hnd. unfold node_fill, nodeName_fill.
  rewrite (isDependency_targets _ _ _ Hg Hnd). case_bool_decide as Ht.
  - left. split_and!; [done..|].
    apply list_elem_of_fmap in Ht as (l & -> & Hl). eauto.
  - right. split_and!; [done..|]. intros l Hl Heq. apply Ht.
    apply list_elem_of_fmap. eauto.
Qed.

Lemma fill_iff_target_witness :
  (node_fill nodeA = "#EC5800" ∧ nodeName_fill nodeA = "#34495e" ∧
   ∃ l, l ∈ links graphAB ∧ target l = name nodeA) ∨
  (node_fill nodeA = "currentColor" ∧ nodeName_fill nodeA = "#2c3e50" ∧
   ∀ l, l ∈ links graphAB → target l ≠ name nodeA).
Proof.
  apply (fill_iff_target [itemA; itemB] graphAB nodeA); [reflexivity | left].
Defined.

(** The pointer cursor is shown on exactly the nodes on which a click
    opens a window: with the pointer a click outside a drag opens one
    window in a new tab, with the default cursor no click opens
    anything. *)
Theorem cursor_iff_click d :
  (cursor d = "pointer" ∧
   ∀ event, active event = 0 →
     handleNodeClick event d =
       [window_open ("/BeSLighthouse/model_report/:" +:+ to_string (name d)) "_blank"]) ∨
  (cursor d = "default" ∧ ∀ event, handleNodeClick event d = []).
Proof.
  unfold cursor, handleNodeClick. destruct (truthy_url (model_url d)).
  - left. split; [done|]. intros event Ha. by rewrite bool_decide_true.
  - right. done.
Qed.

(** Every link starts at a node that has a report: the node of its
    source has a non-null [model_url] and the pointer cursor. *)
Theorem link_source_has_report data g l nd :
  GraphBuilder data = inr g → l ∈ links g → nd ∈ nodes g → name nd = source l →
  model_url nd = Some ("/BeSLighthouse/model_report" +:+ to_string (name nd)) ∧
  cursor nd = "pointer".
Proof.
  intros Hg Hl Hnd Hname.
  destruct (elem_of_nodes_inv _ _ _ Hg Hnd) as (_ & Hurl & _).
  apply GraphBuilder_inv in Hg as (_ & _ & Hlinks). rewrite Hlinks in Hl.
  apply elem_of_edges in Hl as (it & Hit & Hs & _).
  assert (model_url nd = Some ("/BeSLighthouse/model_report" +:+ to_string (name nd)))
    as Hu.
  { rewrite Hurl, getModelUrl_spec. rewrite decide_True; [done|].
    apply elem_of_item_names. exists it. split; [done|]. congruence. }
  split; [done|]. unfold cursor. by rewrite Hu.
Qed.

Lemma link_source_has_report_witness :
  model_url nodeA = Some ("/BeSLighthouse/model_report" +:+ to_string (name nodeA)) ∧
  cursor nodeA = "pointer".
Proof.
  apply (link_source_has_report [itemA; itemB] graphAB
           (mkLink (JStr "A") (JStr "B")) nodeA);
    [reflexivity | left | left | reflexivity].
Defined.

(** ** Outcome of the effect *)


(** ** Repeated records *)

Lemma add_all_present l s : (∀ v, v ∈ l → v ∈ s) → add_all s l = s.
Proof.
  revert s. induction l as [|v l IH]; intros s Hin; [done|].
  change (add_all s (v :: l)) with (add_all (Set_add v s) l).
  unfold Set_add. rewrite decide_True by (apply Hin; left).
  apply IH. intros w Hw. apply Hin. by right.
Qed.

Lemma add_all_app s l1 l2 : add_all s (l1 ++ l2) = add_all (add_all s l1) l2.
Proof. unfold add_all. apply foldl_app. Qed.

Lemma getModelUrl_same_names data1 data2 nm :
  (∀ v, v ∈ item_name <$> data1 ↔ v ∈ item_name <$> data2) →
  getModelUrl data1 nm = getModelUrl data2 nm.
Proof.
  intros Hiff. rewrite !getModelUrl_spec.
  destruct (decide (nm ∈ item_name <$> data1)) as [H1|H1].
  - rewrite decide_True; [done|]. by apply Hiff.
  - rewrite decide_False; [done|]. by rewrite <- Hiff.
Qed.

Lemma mark_if_same_targets ds1 ds2 nd :
  (∀ v, v ∈ ds1 ↔ v ∈ ds2) → mark_if ds1 nd = mark_if ds2 nd.
Proof.
  intros Hiff. unfold mark_if. destruct (decide (name nd ∈ ds1)) as [H1|H1].
  - rewrite decide_True; [done|]. by apply Hiff.
  - rewrite decide_False; [done|]. by rewrite <- Hiff.
Qed.

(** Feeding every record twice changes no node and adds none; only the
    links are doubled. *)
Theorem GraphBuilder_twice data g :
  GraphBuilder data = inr g →
  GraphBuilder (data ++ data) = inr (mkGraph (nodes g) (links g ++ links g)).
Proof.
  intros Hg. pose proof (GraphBuilder_inv _ _ Hg) as (Hw & Hn & Hl).
  destruct (GraphBuilder_total (data ++ data)) as [g2 Hg2].
  { by apply Forall_app. }
  rewrite Hg2. f_equal.
  apply GraphBuilder_inv in Hg2 as (_ & Hn2 & Hl2).
  destruct g2 as [nodes2 links2]. simpl in *. subst nodes2 links2. f_equal.
  - rewrite Hn. unfold all_names. rewrite !bind_app.
    rewrite add_all_app.
    rewrite (add_all_present _ (add_all [] (data ≫= λ it, item_name it :: deps_of it))).
    + unfold make_nodes. rewrite <- !list_fmap_compose. apply list_fmap_ext.
      intros i nm _. simpl.
      rewrite (mark_if_same_targets ((data ≫= deps_of) ++ (data ≫= deps_of)) (data ≫= deps_of))
        by (intros v; rewrite elem_of_app; tauto).
      rewrite (getModelUrl_same_names (data ++ data) data); [done|].
      intros v. rewrite fmap_app, elem_of_app. tauto.
    + intros v Hv. apply elem_of_add_all. by right.
  - rewrite Hl. unfold edges. by rewrite bind_app.
Qed.

Lemma GraphBuilder_twice_witness :
  GraphBuilder ([itemA; itemB] ++ [itemA; itemB]) =
  inr (mkGraph (nodes graphAB) (links graphAB ++ links graphAB)).
Proof. apply (GraphBuilder_twice [itemA; itemB] graphAB). reflexivity. Defined.

(** ** The drag handlers *)

Lemma run_drag_nodes s i d :
  subject i = Some d →
  ∃ f, sim_nodes (run s i) = alter f d (sim_nodes s) ∧
       ∀ n, f n = set_fixed (fx (f n)) (fy (f n)) n.
Proof.
  destruct i as [|event j|event j|event j]; simpl; [done|..]; intros [= ->].
  - exists (λ n, set_fixed (x n) (y n) n). split; [|done].
    unfold dragstarted. by case_bool_decide.
  - exists (set_fixed (Some (ev_x event)) (Some (ev_y event))). done.
  - exists (set_fixed None None). split; [|done].
    unfold dragended. by case_bool_decide.
Qed.

Lemma run_drag_alpha s i d :
  subject i = Some d →
  alpha (run s i) = alpha s ∧ alphaMin (run s i) = alphaMin s ∧
  alphaDecay (run s i) = alphaDecay s.
Proof.
  destruct i as [|event j|event j|event j]; simpl; [done|..]; intros _.
  - unfold dragstarted. by case_bool_decide.
  - done.
  - unfold dragended. by case_bool_decide.
Qed.

(** No drag handler moves anything: alpha is unchanged, no node is added
    or removed, every node other than the dragged one is untouched, and
    of the dragged node only [fx] and [fy] can change. *)
Theorem drag_handlers_only_pin s i d :
  subject i = Some d →
  alpha (run s i) = alpha s ∧
  length (sim_nodes (run s i)) = length (sim_nodes s) ∧
  ∀ j n, sim_nodes s !! j = Some n →
    ∃ n', sim_nodes (run s i) !! j = Some n' ∧
          n' = set_fixed (fx n') (fy n') n ∧
          (j ≠ d → n' = n).
Proof.
  intros Hsub. destruct (run_drag_nodes s i d Hsub) as (f & Hf & Hpin).
  destruct (run_drag_alpha s i d Hsub) as (Ha & _ & _).
  rewrite Hf. split_and!; [done|apply length_alter|].
  intros j n Hj. destruct (decide (d = j)) as [<-|Hne].
  - exists (f n). rewrite list_lookup_alter_eq, Hj. split_and!; [done|apply Hpin|done].
  - exists n. rewrite list_lookup_alter_ne, Hj by done. split_and!; [done| |done].
    by destruct n.
Qed.

Lemma drag_handlers_only_pin_witness :
  let s := forceSimulation (1 # 1000) (228 # 10000) push [free_node; free_node] in
  alpha (run s (Drag pointer 1)) = alpha s ∧
  length (sim_nodes (run s (Drag pointer 1))) = length (sim_nodes s) ∧
  ∀ j n, sim_nodes s !! j = Some n →
    ∃ n', sim_nodes (run s (Drag pointer 1)) !! j = Some n' ∧
          n' = set_fixed (fx n') (fy n') n ∧
          (j ≠ 1 → n' = n).
Proof.
  apply (drag_handlers_only_pin
           (forceSimulation (1 # 1000) (228 # 10000) push [free_node; free_node])
           (Drag pointer 1) 1).
  reflexivity.
Defined.

Lemma dragged_moves_nodes moves d s :
  sim_nodes (foldl (λ s event, dragged event d s) s moves) =
  match last moves with
  | Some event => alter (set_fixed (Some (ev_x event)) (Some (ev_y event))) d (sim_nodes s)
  | None => sim_nodes s
  end.
Proof.
  revert s. induction moves as [|event moves IH]; intros s; [done|].
  simpl foldl. rewrite IH. unfold dragged at 1 2. simpl sim_nodes.
  destruct moves as [|event' moves]; [done|].
  rewrite last_cons_cons. destruct (last (event' :: moves)) as [e|] eqn:He.
  - rewrite list_alter_alter_eq. by apply list_alter_ext.
  - by rewrite last_cons in He; destruct (last moves).
Qed.

(** A whole gesture on a free node, start, any number of moves and end,
    with no tick in between, leaves the array of nodes as it was; if the
    gesture ends with no other one active, the target of alpha is back
    at 0. *)
Theorem drag_gesture_restores s d n start moves stop_event :
  sim_nodes s !! d = Some n → fx n = None → fy n = None →
  let s' := dragended stop_event d
              (foldl (λ s event, dragged event d s) (dragstarted start d s) moves) in
  sim_nodes s' = sim_nodes s ∧
  alpha s' = alpha s ∧
  (active stop_event = 0 → alphaTarget s' = 0%Q).
Proof.
  intros Hd Hfx Hfy s'. subst s'. split_and!.
  - unfold dragended, update_node. simpl sim_nodes.
    assert (∀ t, sim_nodes (if bool_decide (active stop_event = 0)
                            then set_alphaTarget 0 t else t) = sim_nodes t) as ->
      by (intros t; by case_bool_decide).
    rewrite dragged_moves_nodes.
    assert (sim_nodes (dragstarted start d s) =
            alter (λ n, set_fixed (x n) (y n) n) d (sim_nodes s)) as ->.
    { unfold dragstarted. by case_bool_decide. }
    destruct (last moves); rewrite !list_alter_alter_eq.
    + apply list_eq. intros j. destruct (decide (d = j)) as [<-|Hne].
      * rewrite list_lookup_alter_eq, Hd. simpl. f_equal.
        destruct n. simpl in *. by subst.
      * by rewrite list_lookup_alter_ne.
    + apply list_eq. intros j. destruct (decide (d = j)) as [<-|Hne].
      * rewrite list_lookup_alter_eq, Hd. simpl. f_equal.
        destruct n. simpl in *. by subst.
      * by rewrite list_lookup_alter_ne.
  - unfold dragended.
    assert (∀ t, alpha (update_node (set_fixed None None) d
                  (if bool_decide (active stop_event = 0)
                   then set_alphaTarget 0 t else t)) = alpha t) as ->
      by (intros t; by case_bool_decide).
    induction moves as [|event moves IH] using rev_ind.
    + simpl. unfold dragstarted. by case_bool_decide.
    + by rewrite foldl_app.
  - intros Ha. unfold dragended. by rewrite bool_decide_true.
Qed.

Lemma drag_gesture_restores_witness :
  let s := forceSimulation (1 # 1000) (228 # 10000) push [free_node] in
  let s' := dragended click 0
              (foldl (λ s event, dragged event 0 s) (dragstarted click 0 s)
                 [pointer; click]) in
  sim_nodes s' = sim_nodes s ∧
  alpha s' = alpha s ∧
  (active click = 0 → alphaTarget s' = 0%Q).
Proof.
  apply (drag_gesture_restores
           (forceSimulation (1 # 1000) (228 # 10000) push [free_node])
           0 free_node click [pointer; click] click); reflexivity.
Defined.

(** ** What [ticked] draws *)

Lemma or_zero_number v :
  is_nan (or_zero v) = false ∧ (is_zero (or_zero v) = true → or_zero v = 0%float).
Proof.
  destruct v as [f|]; [|done]. unfold or_zero, truthy.
  destruct (is_zero f) eqn:Hz, (is_nan f) eqn:Hn; simpl; try done.
  split; [done|]. rewrite Hz. done.
Qed.

(** Whatever the state of the nodes, no attribute that [ticked] sets is
    [NaN], and none is the negative zero. *)
Theorem ticked_numbers links nodes :
  let number := λ c : float,
    is_nan c = false ∧ (is_zero c = true → c = 0%float) in
  Forall (λ a, number (x1 a) ∧ number (y1 a) ∧ number (x2 a) ∧ number (y2 a))
    (link_attrs (ticked links nodes)) ∧
  Forall (λ p, number (px p) ∧ number (py p)) (node_attrs (ticked links nodes)) ∧
  Forall (λ p, number (px p) ∧ number (py p)) (nodeName_attrs (ticked links nodes)).
Proof.
  intros number. unfold ticked. simpl.
  split_and!; apply Forall_fmap, Forall_forall; intros d _; simpl;
    split_and!; apply or_zero_number.
Qed.

Example ticked_NaN_position :
  ticked [mkSimLink 0 0] [node_at (Some nan) (Some (-0)%float)] =
  mkFrame [mkLine 0 0 0 0] [mkPoint 0 0] [mkPoint 0 0].
Proof. reflexivity. Qed.



(** ** Drags and the tick loop *)

Lemma pinned_at_dragstarted start d s n a b :
  sim_nodes s !! d = Some n → x n = Some a → y n = Some b →
  pinned_at d a b (dragstarted start d s).
Proof.
  intros Hd Hx Hy. unfold pinned_at.
  assert (sim_nodes (dragstarted start d s) =
          alter (λ n, set_fixed (x n) (y n) n) d (sim_nodes s)) as ->.
  { unfold dragstarted. by case_bool_decide. }
  rewrite list_lookup_alter_eq, Hd. simpl. eauto.
Qed.

(** From the start of a drag, and until the pointer moves, the ticks of
    the simulation as modelled hold the node where it was, whatever the
    forces and whatever happens to the other nodes. *)
Theorem dragstarted_holds_node s d n a b start inputs :
  sim_nodes s !! d = Some n → x n = Some a → y n = Some b →
  Forall (λ i, subject i ≠ Some d) inputs →
  ∃ n', sim_nodes (tick (foldl run (dragstarted start d s) inputs)) !! d = Some n' ∧
        x n' = Some a ∧ y n' = Some b.
Proof.
  intros Hd Hx Hy Hin.
  assert (pinned_at d a b (foldl run (dragstarted start d s) inputs)) as Hp.
  { pose proof (pinned_at_dragstarted start d s n a b Hd Hx Hy) as H0.
    revert H0. generalize (dragstarted start d s).
    induction Hin as [|i inputs Hi _ IH]; intros s0 H0; simpl; [done|].
    by apply IH, pinned_at_run. }
  destruct (pinned_at_tick _ _ _ _ Hp) as [_ (n' & Hn' & Hx' & Hy')]. eauto.
Qed.

Lemma dragstarted_holds_node_witness :
  ∃ n', sim_nodes (tick (foldl run
            (dragstarted click 0 (forceSimulation (1 # 1000) (228 # 10000) push [free_node]))
            [Tick; Tick])) !! 0 = Some n' ∧
        x n' = Some 1%float ∧ y n' = Some 2%float.
Proof.
  apply (dragstarted_holds_node
           (forceSimulation (1 # 1000) (228 # 10000) push [free_node])
           0 free_node 1%float 2%float click [Tick; Tick]);
    [reflexivity | reflexivity | reflexivity |].
  repeat (constructor; [discriminate|]). constructor.
Defined.

Lemma step_hot s :
  alphaTarget s = (1 # 2)%Q → running s = true →
  (0 <= alpha s)%Q → (0 <= alphaDecay s)%Q → (alphaDecay s <= 1)%Q →
  (alphaMin s <= alphaDecay s * (1 # 2))%Q →
  step s = tick s ∧ (alphaDecay s * (1 # 2) <= alpha (tick s))%Q.
Proof.
  intros Ht Hr H0 Hd0 Hd1 Hm.
  assert (alphaDecay s * (1 # 2) <= alpha (tick s))%Q as Hge.
  { simpl. rewrite Qred_correct, Ht.
    assert (0 <= alpha s * (1 - alphaDecay s))%Q by (apply Qmult_le_0_compat; lra).
    lra. }
  split; [|done]. unfold step. rewrite Hr.
  destruct (Qlt_le_dec _ _) as [Hlt|_]; [|done].
  simpl alphaMin in Hlt. lra.
Qed.

(** A drag that starts with no other gesture active sets the target of
    alpha to one half and the loop going; as modelled, the loop then
    never stops of itself, provided the floor is at most half the decay
    rate. *)
Theorem drag_keeps_running s start d n :
  active start = 0 →
  (0 <= alpha s)%Q → (0 <= alphaDecay s)%Q → (alphaDecay s <= 1)%Q →
  (alphaMin s <= alphaDecay s * (1 # 2))%Q →
  running (steps n (dragstarted start d s)) = true ∧
  alphaTarget (steps n (dragstarted start d s)) = (1 # 2)%Q ∧
  ((0 < n)%nat → (alphaMin s <= alpha (steps n (dragstarted start d s)))%Q).
Proof.
  intros Ha H0 Hd0 Hd1 Hm.
  assert (∀ n, let t := steps n (dragstarted start d s) in
            alphaTarget t = (1 # 2)%Q ∧ running t = true ∧ (0 <= alpha t)%Q ∧
            alphaDecay t = alphaDecay s ∧ alphaMin t = alphaMin s ∧
            ((0 < n)%nat → (alphaMin s <= alpha t)%Q)) as Hinv.
  { clear n. induction n as [|n IH].
    - unfold steps, dragstarted. simpl. rewrite bool_decide_true by done.
      simpl. split_and!; try done. intros Hlt. by apply Nat.lt_irrefl in Hlt.
    - destruct IH as (Ht & Hr & Hal & Hd & Hmin & _).
      change (steps (S n) ?t) with (step (steps n t)). simpl.
      destruct (step_hot (steps n (dragstarted start d s))) as [-> Hge];
        try done; rewrite ?Hd, ?Hmin; try done.
      rewrite Hd in Hge. simpl in *. split_and!; try done.
      + lra.
      + intros _. lra. }
  destruct (Hinv n) as (Ht & Hr & _ & _ & _ & Hge). done.
Qed.

Lemma drag_keeps_running_witness :
  let s := forceSimulation (1 # 1000) (228 # 10000) no_force [free_node] in
  running (steps 3 (dragstarted click 0 s)) = true ∧
  alphaTarget (steps 3 (dragstarted click 0 s)) = (1 # 2)%Q ∧
  ((0 < 3)%nat → (alphaMin s <= alpha (steps 3 (dragstarted click 0 s)))%Q).
Proof.
  apply (drag_keeps_running
           (forceSimulation (1 # 1000) (228 # 10000) no_force [free_node]) click 0 3);
    [reflexivity | discriminate | discriminate | discriminate | discriminate].
Defined.

(** ** The pie chart of languages *)

(** The labels and the series of the chart are as many as the entries
    of [chartData] and correspond position by position: pairing them up
    again gives [chartData] back. *)
Theorem Language_labels_series {L V} (chartData : list (Language.datum L V)) :
  zip_with Language.Datum (Language.chartLabels chartData)
    (Language.chartSeries chartData) = chartData ∧
  length (Language.chartLabels chartData) = length chartData ∧
  length (Language.chartSeries chartData) = length chartData.
Proof.
  unfold Language.chartLabels, Language.chartSeries.
  rewrite !length_fmap. split; [|done].
  rewrite zip_with_fmap_l, zip_with_fmap_r, zip_with_diag.
  rewrite <- (list_fmap_id chartData) at 2. apply list_fmap_ext.
  by intros i [].
Qed.
